(** * A shallow embedding of cycletls/index.go (CycleTLS request pipeline)

    The Go package is modelled function by function:
    - [Options], [cycleTLSRequest], [fullRequest], [Response] and the
      [CycleTLS] handle are records;
    - Go maps that are only iterated over ([Options.Headers], the response
      header map) are association lists whose order is the (unspecified)
      map iteration order; maps that are looked up and updated
      ([http.Header], the response header map built by [dispatcher], the
      per-host client cache) are stdpp [gmap]s; a nil Go map is [None];
    - panics and [log.Fatal] (which calls [os.Exit(1)]) are the two abort
      outcomes of the small monad [go];
    - collaborators that live outside this file ([url.Parse], [newClient],
      [parseError], [DecompressBody]) are fields of an environment record
      [Env], and theorems hold for every environment;
    - the network is an explicit input: the outcome of [client.Do]. *)

From Stdlib Require Import ZArith String Ascii.
From stdpp Require Import base gmap strings list.

Local Open Scope Z_scope.

(** ** Strings as Go handles them (ASCII) *)

Module GoStr.

Definition is_upper (c : ascii) : bool :=
  let n := nat_of_ascii c in (Nat.leb 65 n && Nat.leb n 90)%bool.

Definition is_lower (c : ascii) : bool :=
  let n := nat_of_ascii c in (Nat.leb 97 n && Nat.leb n 122)%bool.

Definition lower_char (c : ascii) : ascii :=
  if is_upper c then ascii_of_nat (nat_of_ascii c + 32) else c.

Definition upper_char (c : ascii) : ascii :=
  if is_lower c then ascii_of_nat (nat_of_ascii c - 32) else c.

(** [strings.ToLower] / [strings.ToUpper] on ASCII text. *)
Fixpoint ToLower (s : string) : string :=
  match s with
  | EmptyString => EmptyString
  | String c s' => String (lower_char c) (ToLower s')
  end.

Fixpoint ToUpper (s : string) : string :=
  match s with
  | EmptyString => EmptyString
  | String c s' => String (upper_char c) (ToUpper s')
  end.

(** [strings.Join]. *)
Fixpoint Join (l : list string) (sep : string) : string :=
  match l with
  | [] => ""
  | [x] => x
  | x :: l' => String.append x (String.append sep (Join l' sep))
  end.

(** textproto's [isTokenTable] / [validHeaderFieldByte]. *)
Definition validHeaderFieldByte (c : ascii) : bool :=
  let n := nat_of_ascii c in
  (is_upper c || is_lower c || (Nat.leb 48 n && Nat.leb n 57)
   || existsb (fun d => Ascii.eqb c d)
        ["!"; "#"; "$"; "%"; "&"; "'"; "*"; "+"; "-"; "."; "^"; "_"; "`"; "|"; "~"]%char)%bool.

Fixpoint all_valid (s : string) : bool :=
  match s with
  | EmptyString => true
  | String c s' => (validHeaderFieldByte c && all_valid s')%bool
  end.

(** The rewriting loop of [canonicalMIMEHeaderKey]: upper case the first
    letter and every letter after a dash, lower case the others. *)
Fixpoint canon_go (upper : bool) (s : string) : string :=
  match s with
  | EmptyString => EmptyString
  | String c s' =>
      let c' := if upper then upper_char c else lower_char c in
      String c' (canon_go (Ascii.eqb c' "-"%char) s')
  end.

(** [textproto.CanonicalMIMEHeaderKey]: a key with a byte that is not a
    header-field byte is returned unchanged. *)
Definition CanonicalMIMEHeaderKey (s : string) : string :=
  if all_valid s then canon_go true s else s.

End GoStr.

(** ** Data model (index.go lines 12-64) *)

Record Cookie := mkCookie { cookie_Name : string; cookie_Value : string }.

Record Options := mkOptions {
  URL : string;
  Method : string;
  Headers : list (string * string);   (* map[string]string, iteration order *)
  Body : string;
  Ja3 : string;
  UserAgent : string;
  Proxy : string;
  Cookies : list Cookie;
  Timeout : Z;
  DisableRedirect : bool;
  HeaderOrder : list string;
  OrderAsProvided : bool
}.

Record cycleTLSRequest := mkCycleTLSRequest {
  RequestID : string;
  ctr_Options : Options
}.

(** The [browser] value handed to [newClient]. *)
Record browser := mkBrowser {
  br_JA3 : string;
  br_UserAgent : string;
  br_Cookies : list Cookie
}.

(** An [*http.Client] as the value [newClient] builds from its arguments. *)
Record Client := mkClient {
  cl_browser : browser;
  cl_timeout : Z;
  cl_disableRedirect : bool;
  cl_userAgent : string;
  cl_proxy : string
}.

(** The part of a parsed [*url.URL] the code reads. *)
Record urlInfo := mkURLInfo { url_Host : string }.

(** An [*http.Request] after [processRequest]. *)
Record Request := mkRequest {
  req_Method : string;
  req_URL : urlInfo;
  req_Body : string;
  req_Header : gmap string (list string)
}.

Record fullRequest := mkFullRequest {
  fr_req : Request;
  fr_client : Client;
  fr_options : cycleTLSRequest
}.

Record Response := mkResponse {
  resp_RequestID : string;
  resp_Status : Z;
  resp_Body : string;
  resp_Headers : gmap string string
}.

(** The zero value of [Response]. *)
Definition zeroResponse : Response := mkResponse "" 0 "" ∅.

(** The per-host client cache: [None] is a nil Go map. *)
Abbreviation cache := (option (gmap string Client)).

(** The handle: channels are modelled by the pool semantics below; the
    field that matters to the request path is the cache. *)
Record CycleTLS := mkCycleTLS {
  has_channels : bool;
  cacheClients : cache
}.

(** The value [parseError] returns. *)
Record errorMessage := mkErrorMessage { StatusCode : Z; ErrorMsg : string }.

(** ** Collaborators outside index.go *)

Record Env := mkEnv {
  (** [url.Parse]: [inl msg] on a parse error. *)
  urlParse : string -> string + urlInfo;
  (** [newClient] fails with [Some msg] (e.g. a malformed proxy URL). *)
  newClientErr : browser -> Z -> bool -> string -> string -> option string;
  (** [parseError] (errors.go) classifies a transport error. *)
  parseError : string -> errorMessage;
  (** [DecompressBody] (decode.go). *)
  DecompressBody : list Byte.byte -> list string -> list string -> string
}.

Definition newClient (env : Env) (b : browser) (timeout : Z) (disableRedirect : bool)
    (userAgent proxy : string) : string + Client :=
  match newClientErr env b timeout disableRedirect userAgent proxy with
  | Some e => inl e
  | None => inr (mkClient b timeout disableRedirect userAgent proxy)
  end.

(** ** Aborts: a panic or [log.Fatal] ([os.Exit(1)]) *)

Inductive go (A : Type) : Type :=
  | Ret (a : A)
  | Panic (msg : string)
  | Exit (code : Z).
Arguments Ret {A} a.
Arguments Panic {A} msg.
Arguments Exit {A} code.

Global Instance go_ret : MRet go := fun _ a => Ret a.
Global Instance go_bind : MBind go := fun A B (k : A -> go B) m =>
  match m with
  | Ret a => k a
  | Panic msg => Panic msg
  | Exit code => Exit code
  end.

(** The run-time error of an assignment into a nil map. *)
Definition nilMapPanic : string := "assignment to entry in nil map".

(** ** The [net/http] pieces [processRequest] uses *)

(** [http.HeaderOrderKey] and [http.PHeaderOrderKey] of fhttp. *)
Definition HeaderOrderKey : string := "Header-Order:".
Definition PHeaderOrderKey : string := "PHeader-Order:".

(** [http.Header.Set]: the key is canonicalised, the value list replaced. *)
Definition Header_Set (k v : string) (h : gmap string (list string))
    : gmap string (list string) :=
  <[GoStr.CanonicalMIMEHeaderKey k := [v]]> h.

(** [validMethod]: a non-empty token. *)
Definition validMethod (m : string) : bool :=
  (negb (String.eqb m "") && GoStr.all_valid m)%bool.

(** [http.NewRequest]: an empty method means GET; the header map starts empty. *)
Definition NewRequest (env : Env) (method url body : string) : string + Request :=
  let method := if String.eqb method "" then "GET" else method in
  if negb (validMethod method) then inl "net/http: invalid method"
  else match urlParse env url with
       | inl e => inl e
       | inr u => inr (mkRequest method u body ∅)
       end.

(** ** Header order (index.go lines 162-214) *)

Definition defaultHeaderOrder : list string :=
  ["host"; "connection"; "cache-control"; "device-memory"; "viewport-width";
   "rtt"; "downlink"; "ect"; "sec-ch-ua"; "sec-ch-ua-mobile";
   "sec-ch-ua-full-version"; "sec-ch-ua-arch"; "sec-ch-ua-platform";
   "sec-ch-ua-platform-version"; "sec-ch-ua-model"; "upgrade-insecure-requests";
   "user-agent"; "accept"; "sec-fetch-site"; "sec-fetch-mode"; "sec-fetch-user";
   "sec-fetch-dest"; "referer"; "accept-encoding"; "accept-language"; "cookie"].

(** The precedence list: the caller's, lower-cased, or the default one. *)
Definition headerOrderOf (order : list string) : list string :=
  if Nat.ltb 0 (length order)
  then fold_left (fun acc v => acc ++ [GoStr.ToLower v]) order []
  else defaultHeaderOrder.

(** The inner loop over the header map for one precedence key. *)
Definition orderKeyStep (key : string) (acc : list string)
    (headers : list (string * string)) : list string :=
  fold_left (fun acc '(k, _) =>
      let lowercasekey := GoStr.ToLower k in
      if String.eqb key lowercasekey then acc ++ [lowercasekey] else acc)
    headers acc.

(** [headerorderkey]: the outer loop over the precedence list.  (The
    [headermap] the Go loop also fills is never read.) *)
Definition headerOrderKeys (headerOrder : list string)
    (headers : list (string * string)) : list string :=
  fold_left (fun acc key => orderKeyStep key acc headers) headerOrder [].

(** ** processRequest (index.go lines 131-236) *)

Definition lookupCache (cc : cache) (host : string) : option Client :=
  match cc with
  | Some m => m !! host
  | None => None
  end.

(** [c, ok := client.cacheClients[host]]; on a miss build a client and
    store it. *)
Definition getClient (env : Env) (cc : cache) (host : string) (o : Options)
    : go (Client * cache) :=
  match lookupCache cc host with
  | Some c => Ret (c, cc)
  | None =>
      let br := mkBrowser (Ja3 o) (UserAgent o) (Cookies o) in
      match newClient env br (Timeout o) (DisableRedirect o) (UserAgent o) (Proxy o) with
      | inl _ => Exit 1
      | inr c =>
          match cc with
          | None => Panic nilMapPanic
          | Some m => Ret (c, Some (<[host := c]> m))
          end
      end
  end.

(** The outgoing header map, from the initial literal to the two [Set]s. *)
Definition buildHeader (headerorderkey : list string) (o : Options) (u : urlInfo)
    : gmap string (list string) :=
  let h0 : gmap string (list string) :=
    <[HeaderOrderKey := headerorderkey]>
      (<[PHeaderOrderKey := [":method"; ":authority"; ":scheme"; ":path"]]> ∅) in
  let h1 := fold_left (fun h '(k, v) =>
      if String.eqb k "Content-Length" then h else Header_Set k v h) (Headers o) h0 in
  let h2 := Header_Set "Host" (url_Host u) h1 in
  Header_Set "user-agent" (UserAgent o) h2.

Definition processRequest (env : Env) (cc : cache) (request : cycleTLSRequest)
    : go (fullRequest * cache) :=
  let o := ctr_Options request in
  match urlParse env (URL o) with
  | inl e => Panic e
  | inr urlInfo =>
      '(c, cc') ← getClient env cc (url_Host urlInfo) o;
      match NewRequest env (GoStr.ToUpper (Method o)) (URL o) (Body o) with
      | inl _ => Exit 1
      | inr req =>
          let headerorderkey := headerOrderKeys (headerOrderOf (HeaderOrder o)) (Headers o) in
          match urlParse env (URL o) with
          | inl e => Panic e
          | inr u =>
              let req' := mkRequest (req_Method req) (req_URL req) (req_Body req)
                                    (buildHeader headerorderkey o u) in
              Ret (mkFullRequest req' c request, cc')
          end
      end
  end.

(** A run of requests through one handle: each [processRequest] (the part
    of [Do] and [Queue] that touches the handle) starts from the cache the
    previous one left. *)
Fixpoint processRequests (env : Env) (cc : cache) (requests : list cycleTLSRequest)
    : go (list fullRequest * cache) :=
  match requests with
  | [] => Ret ([], cc)
  | request :: rest =>
      '(fr, cc') ← processRequest env cc request;
      '(frs, cc'') ← processRequests env cc' rest;
      Ret (fr :: frs, cc'')
  end.

(** ** dispatcher (index.go lines 66-101) *)

(** What [ioutil.ReadAll(resp.Body)] yields. *)
Inductive ReadResult :=
  | ReadOk (bytes : list Byte.byte)
  | ReadErr (e : string).

(** A received [*http.Response]: status, header map (iteration order),
    and the outcome of reading its body. *)
Record httpResponse := mkHttpResponse {
  hr_StatusCode : Z;
  hr_Header : list (string * list string);
  hr_Body : ReadResult
}.

(** The outcome of [res.client.Do(res.req)]. *)
Inductive DoResult :=
  | DoErr (e : string)
  | DoOk (r : httpResponse).

(** Indexing a Go map of string slices: nil when absent. *)
Fixpoint headerIndex (name : string) (h : list (string * list string)) : list string :=
  match h with
  | [] => []
  | (k, vs) :: h' => if String.eqb k name then vs else headerIndex name h'
  end.

Definition newline : string := String "010"%char EmptyString.

(** The loop that flattens the response headers. *)
Definition flattenHeaders (h : list (string * list string)) : gmap string string :=
  fold_left (fun headers '(name, values) =>
      if String.eqb name "Set-Cookie"
      then <[name := GoStr.Join values "/,/"]> headers
      else fold_left (fun headers value => <[name := value]> headers) values headers)
    h ∅.

Definition dispatcher (env : Env) (res : fullRequest) (out : DoResult)
    : Response * option string :=
  match out with
  | DoErr e =>
      let parsedError := parseError env e in
      (mkResponse (RequestID (fr_options res)) (StatusCode parsedError)
         (String.append (ErrorMsg parsedError) (String.append "-> " (String.append newline e)))
         ∅, None)
  | DoOk resp =>
      let encoding := headerIndex "Content-Encoding" (hr_Header resp) in
      let content := headerIndex "Content-Type" (hr_Header resp) in
      match hr_Body resp with
      | ReadErr e => (zeroResponse, Some e)
      | ReadOk bodyBytes =>
          let body := DecompressBody env bodyBytes encoding content in
          (mkResponse (RequestID (fr_options res)) (hr_StatusCode resp) body
             (flattenHeaders (hr_Header resp)), None)
      end
  end.

(** ** Queue, Do, Init (index.go lines 103-129, 240-251) *)

(** [options.URL = URL; options.Method = Method] on the by-value copy. *)
Definition setURLMethod (o : Options) (url method : string) : Options :=
  mkOptions url method (Headers o) (Body o) (Ja3 o) (UserAgent o) (Proxy o)
    (Cookies o) (Timeout o) (DisableRedirect o) (HeaderOrder o) (OrderAsProvided o).

Definition withCache (client : CycleTLS) (cc : cache) : CycleTLS :=
  mkCycleTLS (has_channels client) cc.

(** [Queue]: the request it returns is the one sent on [ReqChan]. *)
Definition Queue (env : Env) (client : CycleTLS) (url : string) (options : Options)
    (method : string) : go (fullRequest * CycleTLS) :=
  let opt := mkCycleTLSRequest "Queued Request" (setURLMethod options url method) in
  '(response, cc') ← processRequest env (cacheClients client) opt;
  Ret (response, withCache client cc').

(** [Do]; [net] is the transport's answer to [client.Do]. *)
Definition Do (env : Env) (client : CycleTLS) (url : string) (options : Options)
    (method : string) (net : Client -> Request -> DoResult)
    : go ((Response * option string) * CycleTLS) :=
  let opt := mkCycleTLSRequest "cycleTLSRequest" (setURLMethod options url method) in
  '(res, cc') ← processRequest env (cacheClients client) opt;
  Ret (dispatcher env res (net (fr_client res) (fr_req res)), withCache client cc').

(** [Init(workers ...bool)]. *)
Definition Init (workers : list bool) : CycleTLS :=
  match workers with
  | true :: _ => mkCycleTLS true None
  | _ => mkCycleTLS false (Some ∅)
  end.

(** ** worker and the pool (index.go lines 260-277) *)

(** One iteration of [worker]: dispatch, log an error, send [response]. *)
Definition workerStep (env : Env) (res : fullRequest) (out : DoResult)
    : Response * list string :=
  let '(response, err) := dispatcher env res out in
  let logs := match err with
              | Some e => [String.append "Request Failed: " e]
              | None => []
              end in
  (response, logs).

(** [for res := range reqChan]: the responses sent on [respChan] and the
    log lines, for the requests the worker dequeues with their outcomes. *)
Fixpoint worker (env : Env) (jobs : list (fullRequest * DoResult))
    : list Response * list string :=
  match jobs with
  | [] => ([], [])
  | (res, out) :: jobs' =>
      let '(response, logs) := workerStep env res out in
      let '(sent, logs') := worker env jobs' in
      (response :: sent, logs ++ logs')
  end.

Definition poolSize : nat := 100.

(** The pool: requests waiting on [ReqChan] (in send order), requests held
    by busy workers, responses received from [RespChan], and the history
    of submissions. *)
Record PoolState := mkPool {
  pending : list fullRequest;
  busy : list fullRequest;
  results : list Response;
  submitted : list fullRequest
}.

Inductive poolStep (env : Env) : PoolState -> PoolState -> Prop :=
  | step_submit r p b o s :
      poolStep env (mkPool p b o s) (mkPool (p ++ [r]) b o (s ++ [r]))
  | step_take r p b o s :
      (length b < poolSize)%nat ->
      poolStep env (mkPool (r :: p) b o s) (mkPool p (r :: b) o s)
  | step_finish r out p b1 b2 o s :
      poolStep env (mkPool p (b1 ++ r :: b2) o s)
        (mkPool p (b1 ++ b2) (o ++ [(workerStep env r out).1]) s).

Inductive poolSteps (env : Env) : PoolState -> PoolState -> Prop :=
  | steps_refl st : poolSteps env st st
  | steps_cons st1 st2 st3 :
      poolStep env st1 st2 -> poolSteps env st2 st3 -> poolSteps env st1 st3.

Definition poolInit : PoolState := mkPool [] [] [] [].

(** ** A concrete environment for evaluating the code on sample inputs

    [sampleParse] agrees with Go's [url.Parse] on the URLs used below:
    a URL that starts with a colon is rejected ("missing protocol
    scheme"), and the host is the text between "://" and the next slash. *)

Module Sample.

Fixpoint takeHost (s : string) : string :=
  match s with
  | EmptyString => EmptyString
  | String c s' => if Ascii.eqb c "/"%char then EmptyString else String c (takeHost s')
  end.

Fixpoint hostOf (s : string) : string :=
  match s with
  | EmptyString => EmptyString
  | String _ s' =>
      if String.prefix "://" s then takeHost (substring 3 (String.length s) s)
      else hostOf s'
  end.

Definition sampleParse (s : string) : string + urlInfo :=
  if String.prefix ":" s then inl "missing protocol scheme"
  else inr (mkURLInfo (hostOf s)).

(** [newClient] parses the proxy URL when one is given. *)
Definition sampleNewClientErr (_ : browser) (_ : Z) (_ : bool) (_ : string)
    (proxy : string) : option string :=
  if String.eqb proxy "" then None
  else match sampleParse proxy with inl e => Some e | inr _ => None end.

Definition sampleParseError (e : string) : errorMessage :=
  mkErrorMessage 502 "dial error".

Definition env : Env :=
  mkEnv sampleParse sampleNewClientErr sampleParseError
    (fun bytes _ _ => string_of_list_byte bytes).

Definition opts (hdrs : list (string * string)) (order : list string) : Options :=
  mkOptions "" "" hdrs "" "771,4865" "X" "" [] 10 false order false.

End Sample.

(** * Properties *)

(** ** Header order *)

Section HeaderOrder.

(** The header names (lower-cased) that match one precedence key. *)
Definition matches (key : string) (hs : list (string * string)) : list string :=
  List.filter (String.eqb key) (map (fun kv => GoStr.ToLower kv.1) hs).

Lemma orderKeyStep_app (key : string) (hs : list (string * string)) :
  forall acc, orderKeyStep key acc hs = acc ++ matches key hs.
Proof.
  unfold orderKeyStep, matches.
  induction hs as [|[k v] hs IH]; intros acc; simpl.
  - by rewrite app_nil_r.
  - rewrite IH. destruct (String.eqb key (GoStr.ToLower k)).
    + by rewrite <- app_assoc.
    + reflexivity.
Qed.

Lemma headerOrderKeys_flat_map (order : list string) (hs : list (string * string)) :
  headerOrderKeys order hs = flat_map (fun key => matches key hs) order.
Proof.
  unfold headerOrderKeys.
  change (flat_map (fun key => matches key hs) order)
    with ([] ++ flat_map (fun key => matches key hs) order).
  generalize (@nil string) as acc.
  induction order as [|key order IH]; intros acc; simpl.
  - by rewrite app_nil_r.
  - rewrite IH, orderKeyStep_app. by rewrite app_assoc.
Qed.

Lemma fold_append_map (f : string -> string) (l : list string) :
  forall acc, fold_left (fun acc v => acc ++ [f v]) l acc = acc ++ map f l.
Proof.
  induction l as [|x l IH]; intros acc; simpl.
  - by rewrite app_nil_r.
  - rewrite IH. by rewrite <- app_assoc.
Qed.

Lemma headerOrderOf_spec (order : list string) :
  headerOrderOf order =
    match order with [] => defaultHeaderOrder | _ => map GoStr.ToLower order end.
Proof.
  unfold headerOrderOf. destruct order as [|v order]; [reflexivity|].
  simpl. by rewrite fold_append_map.
Qed.

Lemma matches_repeat (key : string) (hs : list (string * string)) :
  matches key hs = repeat key (length (matches key hs)).
Proof.
  unfold matches. induction hs as [|[k v] hs IH]; simpl; [reflexivity|].
  destruct (String.eqb key (GoStr.ToLower k)) eqn:E; [|exact IH].
  apply String.eqb_eq in E. simpl. rewrite <- E. f_equal. exact IH.
Qed.

Lemma Permutation_list_filter {A} (f : A -> bool) (l l' : list A) :
  Permutation l l' -> Permutation (List.filter f l) (List.filter f l').
Proof.
  induction 1 as [|x l l' _ IH|x y l|l l' l'' _ IH1 _ IH2]; simpl.
  - constructor.
  - destruct (f x); [constructor|]; exact IH.
  - destruct (f x), (f y); try constructor; reflexivity.
  - by rewrite IH1.
Qed.

Lemma matches_perm (key : string) (hs hs' : list (string * string)) :
  Permutation hs hs' -> matches key hs = matches key hs'.
Proof.
  intros Hp. rewrite (matches_repeat key hs), (matches_repeat key hs').
  f_equal. apply Permutation_length. unfold matches.
  apply Permutation_list_filter, Permutation_map, Hp.
Qed.

Lemma in_headerOrderKeys (order : list string) (hs : list (string * string)) (x : string) :
  In x (headerOrderKeys order hs) <->
  In x order /\ exists k v, In (k, v) hs /\ GoStr.ToLower k = x.
Proof.
  rewrite headerOrderKeys_flat_map, in_flat_map. unfold matches. split.
  - intros (key & Hkey & Hx). apply filter_In in Hx as [Hx Heq].
    apply String.eqb_eq in Heq. subst key.
    apply in_map_iff in Hx as ([k v] & Hk & Hin). simpl in Hk.
    split; [exact Hkey|]. by exists k, v.
  - intros (Hx & k & v & Hin & Hk). exists x. split; [exact Hx|].
    apply filter_In. split.
    + apply in_map_iff. by exists (k, v).
    + by apply String.eqb_eq.
Qed.

End HeaderOrder.

(** ** Claims on header ordering *)

(** C6: the ordered header names are, walking the precedence list (the
    caller's, lower-cased, or the default one when the caller's is empty),
    the request's header names that equal the key once lower-cased; so a
    name is in the output exactly when it is in the precedence list and
    some header matches it case-insensitively. On headers
    {"Accept": "*/*", "User-Agent": "X"} and order ["user-agent","accept"]
    the output is ["user-agent","accept"], in either map order. *)
Theorem header_order_precedence (order : list string) (hs : list (string * string)) :
  let L := headerOrderOf order in
  L = match order with [] => defaultHeaderOrder | _ => map GoStr.ToLower order end /\
  headerOrderKeys L hs = flat_map (fun key => matches key hs) L /\
  (forall x, In x (headerOrderKeys L hs) <->
             In x L /\ exists k v, In (k, v) hs /\ GoStr.ToLower k = x) /\
  headerOrderKeys (headerOrderOf ["user-agent"; "accept"])
    [("Accept", "*/*"); ("User-Agent", "X")] = ["user-agent"; "accept"] /\
  headerOrderKeys (headerOrderOf ["user-agent"; "accept"])
    [("User-Agent", "X"); ("Accept", "*/*")] = ["user-agent"; "accept"].
Proof.
  intros L. split; [apply headerOrderOf_spec|].
  split; [apply headerOrderKeys_flat_map|].
  split; [intros x; apply in_headerOrderKeys|].
  split; reflexivity.
Qed.

(** C8: the ordered header names do not depend on the iteration order of
    the header map: two iteration orders of the same header set give the
    same output. *)
Theorem header_order_deterministic (order : list string) (hs hs' : list (string * string)) :
  Permutation hs hs' ->
  headerOrderKeys (headerOrderOf order) hs = headerOrderKeys (headerOrderOf order) hs'.
Proof.
  intros Hp. rewrite !headerOrderKeys_flat_map.
  apply flat_map_ext. intros key. by apply matches_perm.
Qed.

Lemma header_order_deterministic_witness :
  Permutation [("Accept", "*/*"); ("User-Agent", "X")] [("User-Agent", "X"); ("Accept", "*/*")] /\
  headerOrderKeys (headerOrderOf []) [("Accept", "*/*"); ("User-Agent", "X")] =
  headerOrderKeys (headerOrderOf []) [("User-Agent", "X"); ("Accept", "*/*")].
Proof.
  split; [apply perm_swap|].
  apply (header_order_deterministic [] _ _). apply perm_swap.
Defined.

(** ** The request path *)

Section RequestPath.

Context (env : Env).

Lemma getClient_hit (cc : cache) (host : string) (o : Options) (c : Client) :
  lookupCache cc host = Some c -> getClient env cc host o = Ret (c, cc).
Proof. intros H. unfold getClient. by rewrite H. Qed.

Lemma getClient_stores (cc cc' : cache) (host : string) (o : Options) (c : Client) :
  getClient env cc host o = Ret (c, cc') -> lookupCache cc' host = Some c.
Proof.
  unfold getClient. destruct (lookupCache cc host) as [c0|] eqn:Hl.
  - intros [= -> ->]. exact Hl.
  - destruct (newClient _ _ _ _ _ _) as [e|c0]; [discriminate|].
    destruct cc as [m|]; [|discriminate].
    intros [= -> <-]. simpl. by rewrite lookup_insert_eq.
Qed.

Lemma processRequest_inv (cc cc' : cache) (request : cycleTLSRequest) (fr : fullRequest) :
  processRequest env cc request = Ret (fr, cc') ->
  exists u req,
    urlParse env (URL (ctr_Options request)) = inr u /\
    getClient env cc (url_Host u) (ctr_Options request) = Ret (fr_client fr, cc') /\
    NewRequest env (GoStr.ToUpper (Method (ctr_Options request)))
      (URL (ctr_Options request)) (Body (ctr_Options request)) = inr req /\
    fr_options fr = request /\
    fr_req fr = mkRequest (req_Method req) (req_URL req) (req_Body req)
      (buildHeader (headerOrderKeys (headerOrderOf (HeaderOrder (ctr_Options request)))
                      (Headers (ctr_Options request))) (ctr_Options request) u).
Proof.
  unfold processRequest; cbv zeta.
  destruct (urlParse env (URL (ctr_Options request))) as [e|u] eqn:Hu; [discriminate|].
  destruct (getClient env cc (url_Host u) (ctr_Options request)) as [[c cc0]| |] eqn:Hg;
    simpl; try discriminate.
  destruct (NewRequest _ _ _ _) as [e|req] eqn:Hn; [discriminate|].
  intros [= <- ->]. exists u, req. simpl. auto.
Qed.

(** Parsing and client failures: the aborts of [processRequest]. *)
Lemma processRequest_bad_url (cc : cache) (request : cycleTLSRequest) (e : string) :
  urlParse env (URL (ctr_Options request)) = inl e ->
  processRequest env cc request = Panic e.
Proof. intros H. unfold processRequest; cbv zeta. by rewrite H. Qed.

Lemma processRequest_client_error (cc : cache) (request : cycleTLSRequest)
    (u : urlInfo) (e : string) :
  let o := ctr_Options request in
  urlParse env (URL o) = inr u ->
  lookupCache cc (url_Host u) = None ->
  newClientErr env (mkBrowser (Ja3 o) (UserAgent o) (Cookies o)) (Timeout o)
    (DisableRedirect o) (UserAgent o) (Proxy o) = Some e ->
  processRequest env cc request = Exit 1.
Proof.
  intros o Hu Hl Hn. unfold processRequest; cbv zeta. fold o. rewrite Hu.
  unfold getClient. rewrite Hl. unfold newClient. by rewrite Hn.
Qed.

End RequestPath.

(** What a returning [processRequest] does to the client cache.  *)

Lemma getClient_cache (env : Env) (cc cc' : cache) (host : string) (o : Options) (c : Client) :
  getClient env cc host o = Ret (c, cc') ->
  (forall h c0, lookupCache cc h = Some c0 -> lookupCache cc' h = Some c0) /\
  (forall h c0, lookupCache cc' h = Some c0 -> lookupCache cc h = Some c0 \/ h = host).
Proof.
  unfold getClient. destruct (lookupCache cc host) as [c1|] eqn:Hl.
  - intros [= -> ->]. split; auto.
  - destruct (newClient _ _ _ _ _ _) as [e|c1]; [discriminate|].
    destruct cc as [m|]; [|discriminate]. intros [= -> <-]. simpl in *. split.
    + intros h c0 Hh. destruct (decide (h = host)) as [->|Hne]; [congruence|].
      by rewrite lookup_insert_ne by congruence.
    + intros h c0 Hh. destruct (decide (h = host)) as [->|Hne]; [by right|].
      left. by rewrite lookup_insert_ne in Hh by congruence.
Qed.

Lemma processRequest_cache (env : Env) (cc cc' : cache) (request : cycleTLSRequest)
    (fr : fullRequest) :
  processRequest env cc request = Ret (fr, cc') ->
  (forall h c0, lookupCache cc h = Some c0 -> lookupCache cc' h = Some c0) /\
  (forall h c0, lookupCache cc' h = Some c0 ->
     lookupCache cc h = Some c0 \/
     exists u, urlParse env (URL (ctr_Options request)) = inr u /\ h = url_Host u).
Proof.
  intros H. apply processRequest_inv in H as (u & r & Hu & Hg & _).
  apply getClient_cache in Hg as [H1 H2]. split; [exact H1|].
  intros h c0 Hh. destruct (H2 h c0 Hh) as [?| ->]; [by left|right; by exists u].
Qed.

Lemma processRequests_keeps (env : Env) (requests : list cycleTLSRequest) :
  forall (cc cc' : cache) (frs : list fullRequest),
  processRequests env cc requests = Ret (frs, cc') ->
  forall h c0, lookupCache cc h = Some c0 -> lookupCache cc' h = Some c0.
Proof.
  induction requests as [|request rest IH]; intros cc cc' frs H h c0 Hh; simpl in H.
  - injection H as _ <-. exact Hh.
  - destruct (processRequest env cc request) as [[fr cc1]| |] eqn:Hp;
      simpl in H; try discriminate.
    destruct (processRequests env cc1 rest) as [[frs1 cc2]| |] eqn:Hr;
      simpl in H; try discriminate.
    injection H as _ <-.
    apply (IH cc1 cc2 frs1 Hr h c0).
    exact (proj1 (processRequest_cache _ _ _ _ _ Hp) h c0 Hh).
Qed.

(** C5: two requests through the same handle whose URLs have the same host,
    with any run of other requests (to any hosts) processed in between:
    the second gets the client the first one got (built from the first
    request's options, or found in the cache), whatever its own timeout,
    proxy, redirect flag or user-agent, and leaves the cache unchanged. *)
Theorem same_host_reuses_client (env : Env) (cc cc1 ccm cc2 : cache)
    (req1 req2 : cycleTLSRequest) (between : list cycleTLSRequest)
    (u1 u2 : urlInfo) (fr1 fr2 : fullRequest) (frs : list fullRequest) :
  urlParse env (URL (ctr_Options req1)) = inr u1 ->
  urlParse env (URL (ctr_Options req2)) = inr u2 ->
  url_Host u1 = url_Host u2 ->
  processRequest env cc req1 = Ret (fr1, cc1) ->
  processRequests env cc1 between = Ret (frs, ccm) ->
  processRequest env ccm req2 = Ret (fr2, cc2) ->
  fr_client fr2 = fr_client fr1 /\ cc2 = ccm.
Proof.
  intros Hu1 Hu2 Hh H1 Hm H2.
  apply processRequest_inv in H1 as (u1' & r1 & Hu1' & Hg1 & _).
  apply processRequest_inv in H2 as (u2' & r2 & Hu2' & Hg2 & _).
  rewrite Hu1 in Hu1'. injection Hu1' as <-.
  rewrite Hu2 in Hu2'. injection Hu2' as <-.
  apply getClient_stores in Hg1. rewrite Hh in Hg1.
  apply (processRequests_keeps env between cc1 ccm frs Hm) in Hg1.
  rewrite (getClient_hit env _ _ _ _ Hg1) in Hg2.
  by injection Hg2 as -> ->.
Qed.

Module SampleRequests.

Definition reqA : cycleTLSRequest :=
  mkCycleTLSRequest "cycleTLSRequest" (setURLMethod (Sample.opts [] []) "https://a.com/x" "GET").

(** Same host, other path, other timeout, proxy, redirect flag and user-agent. *)
Definition reqB : cycleTLSRequest :=
  mkCycleTLSRequest "cycleTLSRequest"
    (mkOptions "https://a.com/y" "POST" [] "" "771,4865" "Y" "http://p:8080" [] 99 true [] false).

(** Another host, processed between [reqA] and [reqB]. *)
Definition reqC : cycleTLSRequest :=
  mkCycleTLSRequest "cycleTLSRequest" (setURLMethod (Sample.opts [] []) "https://b.com/z" "GET").

End SampleRequests.

Lemma same_host_reuses_client_witness :
  exists fr1 cc1 frs ccm fr2 cc2,
    processRequest Sample.env (Some ∅) SampleRequests.reqA = Ret (fr1, cc1) /\
    processRequests Sample.env cc1 [SampleRequests.reqC] = Ret (frs, ccm) /\
    processRequest Sample.env ccm SampleRequests.reqB = Ret (fr2, cc2) /\
    (fr_client fr2 = fr_client fr1 /\ cc2 = ccm) /\
    cl_timeout (fr_client fr2) = 10 /\ cl_proxy (fr_client fr2) = "".
Proof.
  do 6 eexists.
  match goal with |- ?A /\ ?M /\ ?B /\ _ =>
    assert (HA : A) by reflexivity; assert (HM : M) by reflexivity;
    assert (HB : B) by reflexivity end.
  split; [exact HA|]. split; [exact HM|]. split; [exact HB|]. split.
  - exact (same_host_reuses_client Sample.env _ _ _ _ SampleRequests.reqA SampleRequests.reqB
             [SampleRequests.reqC] (mkURLInfo "a.com") (mkURLInfo "a.com") _ _ _
             eq_refl eq_refl eq_refl HA HM HB).
  - split; reflexivity.
Defined.

(** ** Aborts while building a request *)

Module Bad.

Definition badURL : cycleTLSRequest :=
  mkCycleTLSRequest "cycleTLSRequest" (setURLMethod (Sample.opts [] []) ":bad" "GET").

Definition badProxy : cycleTLSRequest :=
  mkCycleTLSRequest "cycleTLSRequest"
    (mkOptions "https://a.com/x" "GET" [] "" "771,4865" "X" ":bad" [] 10 false [] false).

End Bad.

(** C2 (as stated, refuted): a URL that [url.Parse] rejects makes
    [processRequest] panic, and a proxy URL [newClient] rejects makes it
    call [log.Fatal] (exit status 1); neither is a returned error. *)
Lemma request_construction_aborts_counterexample :
  processRequest Sample.env (Some ∅) Bad.badURL = Panic "missing protocol scheme" /\
  processRequest Sample.env (Some ∅) Bad.badProxy = Exit 1.
Proof. split; reflexivity. Qed.

(** C2 (amended): building a request through [Do] or [Queue] panics with
    the parse error when the target URL does not parse, and exits the
    process (status 1, [log.Fatal]) when the client for a host that is not
    cached cannot be built. *)
Theorem request_construction_aborts (env : Env) (client : CycleTLS) (url : string)
    (opts : Options) (m : string) (net : Client -> Request -> DoResult) :
  (forall e, urlParse env url = inl e ->
     Do env client url opts m net = Panic e /\ Queue env client url opts m = Panic e) /\
  (forall u e, urlParse env url = inr u ->
     lookupCache (cacheClients client) (url_Host u) = None ->
     newClientErr env (mkBrowser (Ja3 opts) (UserAgent opts) (Cookies opts)) (Timeout opts)
       (DisableRedirect opts) (UserAgent opts) (Proxy opts) = Some e ->
     Do env client url opts m net = Exit 1 /\ Queue env client url opts m = Exit 1).
Proof.
  split.
  - intros e He. unfold Do, Queue; cbv zeta.
    rewrite (processRequest_bad_url env _
               (mkCycleTLSRequest "cycleTLSRequest" (setURLMethod opts url m)) e He),
            (processRequest_bad_url env _
               (mkCycleTLSRequest "Queued Request" (setURLMethod opts url m)) e He).
    split; reflexivity.
  - intros u e Hu Hl Hn. unfold Do, Queue; cbv zeta.
    rewrite (processRequest_client_error env _
               (mkCycleTLSRequest "cycleTLSRequest" (setURLMethod opts url m)) u e Hu Hl Hn),
            (processRequest_client_error env _
               (mkCycleTLSRequest "Queued Request" (setURLMethod opts url m)) u e Hu Hl Hn).
    split; reflexivity.
Qed.

Lemma request_construction_aborts_witness :
  Do Sample.env (Init []) ":bad" (Sample.opts [] []) "GET" (fun _ _ => DoErr "")
    = Panic "missing protocol scheme" /\
  Do Sample.env (Init []) "https://a.com/x"
    (mkOptions "" "" [] "" "771,4865" "X" ":bad" [] 10 false [] false) "GET"
    (fun _ _ => DoErr "") = Exit 1.
Proof.
  split.
  - apply (proj1 (request_construction_aborts Sample.env (Init []) ":bad"
             (Sample.opts [] []) "GET" (fun _ _ => DoErr "")) "missing protocol scheme").
    reflexivity.
  - apply (proj2 (request_construction_aborts Sample.env (Init []) "https://a.com/x"
             (mkOptions "" "" [] "" "771,4865" "X" ":bad" [] 10 false [] false) "GET"
             (fun _ _ => DoErr "")) (mkURLInfo "a.com") "missing protocol scheme");
      reflexivity.
Defined.

(** ** A pool handle has a nil cache *)

Lemma getClient_nil (env : Env) (host : string) (o : Options) (x : Client * cache) :
  getClient env None host o <> Ret x.
Proof.
  unfold getClient. simpl. by destruct (newClient _ _ _ _ _ _).
Qed.

Lemma processRequest_nil (env : Env) (request : cycleTLSRequest) (x : fullRequest * cache) :
  processRequest env None request <> Ret x.
Proof.
  destruct x as [fr cc]. intros H. apply processRequest_inv in H as (u & r & _ & Hg & _).
  exact (getClient_nil _ _ _ _ Hg).
Qed.

(** C9: [Init] asked for the pool leaves the cache map nil, so no [Do] or
    [Queue] through that handle ever returns; with a URL that parses and a
    client that builds, it panics on the assignment into the nil map. *)
Theorem pool_handle_nil_cache (env : Env) (rest : list bool) (url : string)
    (opts : Options) (m : string) (net : Client -> Request -> DoResult) :
  cacheClients (Init (true :: rest)) = None /\
  (forall x, Do env (Init (true :: rest)) url opts m net <> Ret x) /\
  (forall x, Queue env (Init (true :: rest)) url opts m <> Ret x) /\
  (forall u, urlParse env url = inr u ->
     newClientErr env (mkBrowser (Ja3 opts) (UserAgent opts) (Cookies opts)) (Timeout opts)
       (DisableRedirect opts) (UserAgent opts) (Proxy opts) = None ->
     Do env (Init (true :: rest)) url opts m net = Panic nilMapPanic /\
     Queue env (Init (true :: rest)) url opts m = Panic nilMapPanic).
Proof.
  split; [reflexivity|]. split; [|split].
  - intros x. unfold Do. simpl.
    destruct (processRequest _ None _) as [[fr cc]| |] eqn:H; simpl; try discriminate.
    exfalso. exact (processRequest_nil _ _ _ H).
  - intros x. unfold Queue. simpl.
    destruct (processRequest _ None _) as [[fr cc]| |] eqn:H; simpl; try discriminate.
    exfalso. exact (processRequest_nil _ _ _ H).
  - intros u Hu Hn. unfold Do, Queue, processRequest. simpl. rewrite Hu.
    unfold getClient, newClient. simpl. rewrite Hn. split; reflexivity.
Qed.

Lemma pool_handle_nil_cache_witness :
  Do Sample.env (Init [true]) "https://a.com/x" (Sample.opts [] []) "GET"
    (fun _ _ => DoErr "") = Panic nilMapPanic.
Proof.
  apply (proj2 (proj2 (proj2 (pool_handle_nil_cache Sample.env [] "https://a.com/x"
           (Sample.opts [] []) "GET" (fun _ _ => DoErr "")))) (mkURLInfo "a.com"));
    reflexivity.
Defined.

(** ** Do and Queue set URL and Method themselves *)

(** C10: [Do] and [Queue] behave the same whatever URL and Method the
    options carry; the request they build carries the options with URL and
    Method replaced by their parameters and every other field as given. *)
Theorem do_queue_override_url_method (env : Env) (client : CycleTLS) (url : string)
    (opts : Options) (m : string) (net : Client -> Request -> DoResult) (url0 m0 : string) :
  Do env client url (setURLMethod opts url0 m0) m net = Do env client url opts m net /\
  Queue env client url (setURLMethod opts url0 m0) m = Queue env client url opts m /\
  (forall fr client', Queue env client url opts m = Ret (fr, client') ->
     let o := ctr_Options (fr_options fr) in
     URL o = url /\ Method o = m /\ Headers o = Headers opts /\ Body o = Body opts /\
     Ja3 o = Ja3 opts /\ UserAgent o = UserAgent opts /\ Proxy o = Proxy opts /\
     Cookies o = Cookies opts /\ Timeout o = Timeout opts /\
     DisableRedirect o = DisableRedirect opts /\ HeaderOrder o = HeaderOrder opts /\
     OrderAsProvided o = OrderAsProvided opts) /\
  (forall x, Do env client url opts m net = Ret x ->
     exists fr cc', processRequest env (cacheClients client)
                      (mkCycleTLSRequest "cycleTLSRequest" (setURLMethod opts url m)) = Ret (fr, cc') /\
                    fr_options fr = mkCycleTLSRequest "cycleTLSRequest" (setURLMethod opts url m) /\
                    x = (dispatcher env fr (net (fr_client fr) (fr_req fr)), withCache client cc')).
Proof.
  split; [reflexivity|]. split; [reflexivity|]. split.
  - intros fr client' H. unfold Queue in H; cbv zeta in H.
    destruct (processRequest _ _ _) as [[fr0 cc]| |] eqn:Hp; simpl in H; try discriminate.
    injection H as <- _. apply processRequest_inv in Hp as (_ & _ & _ & _ & _ & Ho & _).
    rewrite Ho. simpl. repeat split.
  - intros x H. unfold Do in H; cbv zeta in H.
    destruct (processRequest _ _ _) as [[fr cc]| |] eqn:Hp; simpl in H; try discriminate.
    injection H as <-. exists fr, cc. split; [reflexivity|]. split; [|reflexivity].
    apply processRequest_inv in Hp as (_ & _ & _ & _ & _ & Ho & _). exact Ho.
Qed.

Lemma do_queue_override_url_method_witness :
  exists fr client',
    Queue Sample.env (Init []) "https://a.com/x" (Sample.opts [] []) "GET" = Ret (fr, client') /\
    URL (ctr_Options (fr_options fr)) = "https://a.com/x" /\
    Timeout (ctr_Options (fr_options fr)) = 10.
Proof.
  do 2 eexists.
  match goal with |- ?A /\ _ => assert (HA : A) by reflexivity end.
  split; [exact HA|].
  destruct (proj1 (proj2 (proj2 (do_queue_override_url_method Sample.env (Init [])
              "https://a.com/x" (Sample.opts [] []) "GET" (fun _ _ => DoErr "") "" ""))) _ _ HA)
    as (HU & _ & _ & _ & _ & _ & _ & _ & HT & _).
  split; assumption.
Defined.

(** ** Do's error result *)

(** C1: when [Do] returns, its error is set only when reading the body of a
    received response failed (and is that read error); when the transport
    fails with error [e], the error is nil and the response carries the
    request id, the status [parseError] gives for [e], the body
    "<classification>-> \n<e>" and an empty header map. *)
Theorem do_error_only_on_body_read (env : Env) (client client' : CycleTLS) (url : string)
    (opts : Options) (m : string) (net : Client -> Request -> DoResult)
    (resp : Response) (err : option string) :
  Do env client url opts m net = Ret ((resp, err), client') ->
  exists fr,
    processRequest env (cacheClients client)
      (mkCycleTLSRequest "cycleTLSRequest" (setURLMethod opts url m))
      = Ret (fr, cacheClients client') /\
    (forall e, err = Some e ->
       exists sc hdr, net (fr_client fr) (fr_req fr) = DoOk (mkHttpResponse sc hdr (ReadErr e))) /\
    (forall e, net (fr_client fr) (fr_req fr) = DoErr e ->
       err = None /\
       resp = mkResponse "cycleTLSRequest" (StatusCode (parseError env e))
                (String.append (ErrorMsg (parseError env e))
                   (String.append "-> " (String.append newline e))) ∅).
Proof.
  intros H. unfold Do in H; cbv zeta in H.
  destruct (processRequest _ _ _) as [[fr cc]| |] eqn:Hp; simpl in H; try discriminate.
  injection H as Hd <-. exists fr. split; [reflexivity|].
  assert (Ho : fr_options fr = mkCycleTLSRequest "cycleTLSRequest" (setURLMethod opts url m)).
  { apply processRequest_inv in Hp as (_ & _ & _ & _ & _ & Ho & _). exact Ho. }
  unfold dispatcher in Hd. split.
  - intros e ->. destruct (net (fr_client fr) (fr_req fr)) as [e'|[sc hdr [bytes|e']]].
    + injection Hd as _ Hn. discriminate.
    + injection Hd as _ Hn. discriminate.
    + injection Hd as _ <-. by exists sc, hdr.
  - intros e Hn. rewrite Hn in Hd. injection Hd as <- <-.
    rewrite Ho. split; reflexivity.
Qed.

Lemma do_error_only_on_body_read_witness :
  exists resp client',
    Do Sample.env (Init []) "https://a.com/x" (Sample.opts [] []) "GET"
      (fun _ _ => DoErr "connection refused") = Ret ((resp, None), client') /\
    resp_Status resp = 502.
Proof.
  do 2 eexists.
  match goal with |- ?A /\ _ => assert (HA : A) by reflexivity end.
  split; [exact HA|].
  destruct (do_error_only_on_body_read _ _ _ _ _ _ _ _ _ HA) as (fr & _ & _ & Hnet).
  destruct (Hnet "connection refused" eq_refl) as [_ ->]. reflexivity.
Defined.

(** ** The worker's result *)

Lemma dispatcher_error_zero (env : Env) (r : fullRequest) (o : DoResult) (e : string) :
  (dispatcher env r o).2 = Some e -> (dispatcher env r o).1 = zeroResponse.
Proof.
  unfold dispatcher. destruct o as [e'|[sc hdr [bytes|e']]]; simpl; try discriminate.
  reflexivity.
Qed.

Module WorkerSample.

Definition job : fullRequest :=
  mkFullRequest (mkRequest "GET" (mkURLInfo "a.com") "" ∅)
    (mkClient (mkBrowser "771,4865" "X" []) 10 false "X" "")
    (mkCycleTLSRequest "Queued Request" (setURLMethod (Sample.opts [] []) "https://a.com/x" "GET")).

(** Headers received, then the body stream breaks. *)
Definition brokenBody : DoResult :=
  DoOk (mkHttpResponse 200 [("Content-Type", ["text/html"])] (ReadErr "unexpected EOF")).

End WorkerSample.

(** C3 (as stated, refuted): a worker whose dispatch fails while reading
    the body logs the error and still sends a response (the zero one). *)
Lemma worker_sends_counterexample :
  worker Sample.env [(WorkerSample.job, WorkerSample.brokenBody)]
    = ([zeroResponse], ["Request Failed: unexpected EOF"]) /\
  (worker Sample.env [(WorkerSample.job, WorkerSample.brokenBody)]).1 <> [].
Proof. split; [reflexivity| discriminate]. Qed.

(** C3 (amended): for every request it dequeues the worker sends exactly
    one response: the dispatcher's response; when the dispatcher returns an
    error that response is the zero [Response], and the error is logged. *)
Theorem worker_always_sends (env : Env) (jobs : list (fullRequest * DoResult)) :
  (worker env jobs).1 = map (fun '(r, o) => (dispatcher env r o).1) jobs /\
  (forall r o e, (dispatcher env r o).2 = Some e ->
     (workerStep env r o).1 = zeroResponse /\
     (workerStep env r o).2 = [String.append "Request Failed: " e]) /\
  (forall r o, (dispatcher env r o).2 = None ->
     (workerStep env r o).1 = (dispatcher env r o).1 /\ (workerStep env r o).2 = []).
Proof.
  split; [|split].
  - induction jobs as [|[r o] jobs IH]; [reflexivity|]. simpl.
    unfold workerStep. destruct (dispatcher env r o) as [resp err].
    destruct (worker env jobs) as [sent logs]. simpl in *. by rewrite IH.
  - intros r o e He. pose proof (dispatcher_error_zero env r o e He) as Hz.
    unfold workerStep. destruct (dispatcher env r o) as [resp err]. simpl in *.
    by subst.
  - intros r o He. unfold workerStep. destruct (dispatcher env r o) as [resp err].
    simpl in *. by subst.
Qed.

Lemma worker_always_sends_witness :
  (workerStep Sample.env WorkerSample.job WorkerSample.brokenBody).1 = zeroResponse.
Proof.
  apply (proj1 (proj1 (proj2 (worker_always_sends Sample.env []))
                  WorkerSample.job WorkerSample.brokenBody "unexpected EOF" eq_refl)).
Defined.

(** ** Outgoing headers *)

Lemma canon_user_agent : GoStr.CanonicalMIMEHeaderKey "user-agent" = "User-Agent".
Proof. reflexivity. Qed.

Lemma canon_host : GoStr.CanonicalMIMEHeaderKey "Host" = "Host".
Proof. reflexivity. Qed.

(** [Host] and [User-Agent] are set last, so they override the caller's. *)
Lemma buildHeader_host_useragent (hk : list string) (o : Options) (u : urlInfo) :
  buildHeader hk o u !! "Host" = Some [url_Host u] /\
  buildHeader hk o u !! "User-Agent" = Some [UserAgent o].
Proof.
  unfold buildHeader, Header_Set. rewrite canon_user_agent, canon_host. split.
  - rewrite lookup_insert_ne by discriminate. by rewrite lookup_insert_eq.
  - by rewrite lookup_insert_eq.
Qed.

Module HeaderSample.

Definition req : cycleTLSRequest :=
  mkCycleTLSRequest "cycleTLSRequest"
    (setURLMethod
       (Sample.opts [("content-length", "5"); ("host", "evil.example"); ("User-Agent", "Z")] [])
       "https://a.com/x" "POST").

End HeaderSample.

(** C7 (a code defect): [Host] and [User-Agent] always override the
    caller's values, but the [Content-Length] filter compares the caller's
    key case-sensitively before [Header.Set] canonicalises it, so a header
    given as "content-length" is sent as "Content-Length". *)
Theorem content_length_filter_case_sensitive :
  (forall hk o u,
     buildHeader hk o u !! "Host" = Some [url_Host u] /\
     buildHeader hk o u !! "User-Agent" = Some [UserAgent o]) /\
  exists fr cc,
    processRequest Sample.env (Some ∅) HeaderSample.req = Ret (fr, cc) /\
    req_Header (fr_req fr) !! "Content-Length" = Some ["5"] /\
    req_Header (fr_req fr) !! "Host" = Some ["a.com"] /\
    req_Header (fr_req fr) !! "User-Agent" = Some ["X"].
Proof.
  split; [exact buildHeader_host_useragent|].
  do 2 eexists. split; [reflexivity|]. split; [|split]; reflexivity.
Qed.

(** ** The pool *)

Section Pool.

Context (env : Env).

(** [resp] is what a worker sends for [r] under some transport outcome. *)
Definition produced (r : fullRequest) (resp : Response) : Prop :=
  exists out, resp = (workerStep env r out).1.

Definition poolInv (st : PoolState) : Prop :=
  exists done,
    Permutation (submitted st) (pending st ++ busy st ++ done) /\
    Forall2 produced done (results st).

Lemma poolInv_init : poolInv poolInit.
Proof. exists []. split; constructor. Qed.

Lemma poolInv_step (st st' : PoolState) :
  poolStep env st st' -> poolInv st -> poolInv st'.
Proof.
  unfold poolInv. intros Hs (done & Hp & Hf). inversion Hs as
    [r p b o s|r p b o s _|r out p b1 b2 o s]; subst; simpl in *.
  - exists done. split; [|exact Hf]. rewrite Hp. solve_Permutation.
  - exists done. split; [|exact Hf]. rewrite Hp. solve_Permutation.
  - exists (done ++ [r]). split.
    + rewrite Hp. solve_Permutation.
    + apply Forall2_app; [exact Hf|]. constructor; [|constructor]. by exists out.
Qed.

Lemma poolInv_steps (st st' : PoolState) :
  poolSteps env st st' -> poolInv st -> poolInv st'.
Proof.
  induction 1 as [st|st1 st2 st3 Hs _ IH]; [done|].
  intros H. apply IH. exact (poolInv_step _ _ Hs H).
Qed.

Lemma poolSteps_trans (st1 st2 st3 : PoolState) :
  poolSteps env st1 st2 -> poolSteps env st2 st3 -> poolSteps env st1 st3.
Proof.
  induction 1 as [st|st1 st2 st4 Hs _ IH]; [done|].
  intros H. econstructor; [exact Hs|]. by apply IH.
Qed.

(** Busy workers can always finish. *)
Lemma finish_all (p b : list fullRequest) (o : list Response) (s' : list fullRequest) :
  exists o', poolSteps env (mkPool p b o s') (mkPool p [] o' s').
Proof.
  revert o. induction b as [|r b IH]; intros o.
  - exists o. constructor.
  - destruct (IH (o ++ [(workerStep env r (DoErr "")).1])) as [o' Ho'].
    exists o'. econstructor; [|exact Ho'].
    exact (step_finish env r (DoErr "") p [] b o s').
Qed.

(** Every pending request can be taken and finished. *)
Lemma drain (st : PoolState) :
  exists st', poolSteps env st st' /\ pending st' = [] /\ busy st' = [] /\
              submitted st' = submitted st.
Proof.
  destruct st as [p b o s]. simpl.
  destruct (finish_all p b o s) as [o1 H1].
  cut (exists st', poolSteps env (mkPool p [] o1 s) st' /\ pending st' = [] /\
                   busy st' = [] /\ submitted st' = s).
  { intros (st' & H2 & Hst). exists st'. split; [|exact Hst].
    exact (poolSteps_trans _ _ _ H1 H2). }
  clear H1. revert o1. induction p as [|r p IH]; intros o1.
  - exists (mkPool [] [] o1 s). repeat split. constructor.
  - destruct (IH (o1 ++ [(workerStep env r (DoErr "")).1])) as (st' & H & Hst).
    exists st'. split; [|exact Hst].
    econstructor; [apply step_take; simpl; unfold poolSize; lia|].
    econstructor; [exact (step_finish env r (DoErr "") p [] [] o1 s)|].
    exact H.
Qed.

Lemma produced_id (r : fullRequest) (resp : Response) :
  produced r resp ->
  resp_RequestID resp = RequestID (fr_options r) \/ resp_RequestID resp = "".
Proof.
  intros [out ->]. unfold workerStep, dispatcher.
  destruct out as [e|[sc hdr [bytes|e]]]; simpl; auto.
Qed.

Lemma queue_request_id (client client' : CycleTLS) (url : string) (opts : Options)
    (m : string) (fr : fullRequest) :
  Queue env client url opts m = Ret (fr, client') ->
  RequestID (fr_options fr) = "Queued Request".
Proof.
  unfold Queue; cbv zeta.
  destruct (processRequest _ _ _) as [[fr0 cc]| |] eqn:Hp; simpl; try discriminate.
  intros [= <- _]. apply processRequest_inv in Hp as (_ & _ & _ & _ & _ & Ho & _).
  by rewrite Ho.
Qed.

End Pool.

(** C4 (amended): in every run of the pool, the workers can always drain
    the submitted requests; once none is waiting or in progress there is
    exactly one result per submitted request, each the worker's response
    for one of them, in no fixed order. [Queue] tags every request
    "Queued Request", so every result carries that id (or the empty id of
    the zero response after a body read error): the id does not tell which
    request a result belongs to. *)
Theorem pool_one_result_per_request (env : Env) (st : PoolState) :
  poolSteps env poolInit st ->
  (exists st', poolSteps env st st' /\ pending st' = [] /\ busy st' = [] /\
               submitted st' = submitted st) /\
  (pending st = [] -> busy st = [] ->
     length (results st) = length (submitted st) /\
     exists done, Permutation (submitted st) done /\ Forall2 (produced env) done (results st)) /\
  (forall client client' url opts m fr,
     Queue env client url opts m = Ret (fr, client') ->
     RequestID (fr_options fr) = "Queued Request") /\
  (Forall (fun r => RequestID (fr_options r) = "Queued Request") (submitted st) ->
     Forall (fun resp => resp_RequestID resp = "Queued Request" \/ resp_RequestID resp = "")
       (results st)).
Proof.
  intros Hrun.
  destruct (poolInv_steps env _ _ Hrun (poolInv_init env)) as (done & Hp & Hf).
  split; [apply drain|]. split; [|split].
  - intros Hpend Hbusy. rewrite Hpend, Hbusy in Hp. simpl in Hp.
    split.
    + rewrite (Permutation_length Hp). symmetry. exact (Forall2_length _ _ _ Hf).
    + by exists done.
  - intros client client' url opts m fr. apply queue_request_id.
  - intros Hall.
    assert (Hd : Forall (fun r => RequestID (fr_options r) = "Queued Request") done).
    { apply (Permutation_Forall Hp) in Hall. by apply Forall_app in Hall as [_ Hall];
        apply Forall_app in Hall as [_ Hall]. }
    clear Hp Hall. induction Hf as [|r resp done rs Hpr _ IH]; constructor.
    + inversion Hd as [|? ? Hr _]; subst.
      destruct (produced_id env r resp Hpr) as [-> | ->]; [left; exact Hr|right; reflexivity].
    + apply IH. by inversion Hd.
Qed.

Module PoolSample.

(** One request submitted, taken by a worker and answered. *)
Definition answered : PoolState :=
  mkPool [] [] [(workerStep Sample.env WorkerSample.job (DoErr "")).1] [WorkerSample.job].

Lemma run_answered : poolSteps Sample.env poolInit answered.
Proof.
  econstructor; [exact (step_submit Sample.env WorkerSample.job [] [] [] [])|]. simpl.
  econstructor; [apply step_take; unfold poolSize; simpl; lia|].
  econstructor; [exact (step_finish Sample.env WorkerSample.job (DoErr "") [] [] [] [] _)|].
  constructor.
Qed.

End PoolSample.

Lemma pool_one_result_per_request_witness :
  length (results PoolSample.answered) = length (submitted PoolSample.answered).
Proof.
  exact (proj1 (proj1 (proj2 (pool_one_result_per_request Sample.env _ PoolSample.run_answered))
                  eq_refl eq_refl)).
Defined.

(** C4 (as stated, refuted): two different requests queued through [Queue]
    and drained by the pool give two results, and each result's id equals
    the id of both submitted requests, so it identifies neither. *)
Lemma pool_one_result_per_request_counterexample :
  exists qA qB h1 h2 st,
    Queue Sample.env (Init []) "https://a.com/x" (Sample.opts [] []) "GET" = Ret (qA, h1) /\
    Queue Sample.env h1 "https://b.com/y" (Sample.opts [] []) "GET" = Ret (qB, h2) /\
    qA <> qB /\
    poolSteps Sample.env poolInit st /\ pending st = [] /\ busy st = [] /\
    submitted st = [qA; qB] /\ length (results st) = 2%nat /\
    Forall (fun resp => resp_RequestID resp = RequestID (fr_options qA) /\
                        resp_RequestID resp = RequestID (fr_options qB)) (results st).
Proof.
  do 5 eexists.
  match goal with |- ?A /\ ?B /\ _ =>
    assert (HA : A) by reflexivity; assert (HB : B) by reflexivity end.
  split; [exact HA|]. split; [exact HB|]. split.
  { intros H. apply (f_equal (fun f => URL (ctr_Options (fr_options f)))) in H.
    vm_compute in H. discriminate. }
  split.
  { econstructor; [apply step_submit|]. simpl.
    econstructor; [apply step_submit|]. simpl.
    econstructor; [apply step_take; unfold poolSize; simpl; lia|].
    econstructor; [apply step_take; unfold poolSize; simpl; lia|].
    econstructor; [apply (step_finish _ _ (DoErr "") _ [] [_])|]. simpl.
    econstructor; [apply (step_finish _ _ (DoErr "") _ [] [])|]. simpl.
    constructor. }
  split; [reflexivity|]. split; [reflexivity|]. split; [reflexivity|].
  split; [reflexivity|].
  repeat constructor.
Qed.

(** * Further properties of index.go *)

(** ** Response headers of a received response *)

Section Flatten.

(** The entry [dispatcher] leaves for one response header. *)
Definition flatEntry (name : string) (values : list string) (old : option string)
    : option string :=
  if String.eqb name "Set-Cookie" then Some (GoStr.Join values "/,/")
  else match last values with Some v => Some v | None => old end.

Lemma set_each_lookup (name : string) (values : list string) :
  forall (m : gmap string string) n,
  fold_left (fun hs v => <[name := v]> hs) values m !! n =
  if String.eqb n name then match last values with Some v => Some v | None => m !! n end
  else m !! n.
Proof.
  induction values as [|v vs IH]; intros m n; simpl.
  - by destruct (String.eqb n name).
  - rewrite IH. destruct (String.eqb n name) eqn:E.
    + apply String.eqb_eq in E as ->. destruct vs as [|v' vs'].
      * simpl. by rewrite lookup_insert_eq.
      * rewrite last_cons_cons. destruct (last (v' :: vs')) eqn:L; [reflexivity|].
        apply last_None in L. discriminate.
    + apply String.eqb_neq in E. by rewrite lookup_insert_ne by congruence.
Qed.

Definition flattenStep (headers : gmap string string) (nv : string * list string)
    : gmap string string :=
  let '(name, values) := nv in
  if String.eqb name "Set-Cookie"
  then <[name := GoStr.Join values "/,/"]> headers
  else fold_left (fun headers value => <[name := value]> headers) values headers.

Lemma flattenStep_lookup (m : gmap string string) (name n : string) (values : list string) :
  flattenStep m (name, values) !! n =
  if String.eqb n name then flatEntry name values (m !! n) else m !! n.
Proof.
  unfold flattenStep, flatEntry.
  destruct (String.eqb name "Set-Cookie") eqn:S.
  - destruct (String.eqb n name) eqn:E.
    + apply String.eqb_eq in E as ->. by rewrite lookup_insert_eq.
    + apply String.eqb_neq in E. by rewrite lookup_insert_ne by congruence.
  - rewrite set_each_lookup. destruct (String.eqb n name) eqn:E; [|reflexivity].
    apply String.eqb_eq in E as ->. reflexivity.
Qed.

Lemma flatten_absent (h : list (string * list string)) (n : string) :
  forall m, ~ In n (map fst h) -> fold_left flattenStep h m !! n = m !! n.
Proof.
  induction h as [|[name values] h IH]; intros m Hn; cbn [fold_left]; [reflexivity|].
  simpl in Hn. rewrite IH by tauto. rewrite flattenStep_lookup.
  destruct (String.eqb n name) eqn:E; [|reflexivity].
  apply String.eqb_eq in E; subst. exfalso. tauto.
Qed.

Lemma flatten_present (h : list (string * list string)) (n : string) (vs : list string) :
  forall m, NoDup (map fst h) -> In (n, vs) h ->
  fold_left flattenStep h m !! n = flatEntry n vs (m !! n).
Proof.
  induction h as [|[name values] h IH]; intros m Hnd Hin; [destruct Hin|].
  cbn [fold_left map fst] in Hnd |- *. apply NoDup_cons in Hnd as [Hnot Hnd].
  destruct Hin as [[= -> ->]|Hin].
  - rewrite flatten_absent by (rewrite <- list_elem_of_In in *; done).
    rewrite flattenStep_lookup. by rewrite String.eqb_refl.
  - rewrite IH by done. rewrite flattenStep_lookup.
    destruct (String.eqb n name) eqn:E; [|reflexivity].
    apply String.eqb_eq in E as ->. exfalso. apply Hnot.
    apply list_elem_of_In, in_map_iff. by exists (name, vs).
Qed.

Lemma flattenHeaders_fold (h : list (string * list string)) :
  flattenHeaders h = fold_left flattenStep h ∅.
Proof. reflexivity. Qed.

End Flatten.

Lemma headerIndex_present (h : list (string * list string)) (n : string) (vs : list string) :
  NoDup (map fst h) -> In (n, vs) h -> headerIndex n h = vs.
Proof.
  induction h as [|[k vs0] h IH]; intros Hnd Hin; [destruct Hin|].
  simpl in Hnd |- *. apply NoDup_cons in Hnd as [Hnot Hnd].
  destruct Hin as [[= -> ->]|Hin].
  - by rewrite String.eqb_refl.
  - destruct (String.eqb k n) eqn:E.
    + apply String.eqb_eq in E as ->. exfalso. apply Hnot.
      apply list_elem_of_In, in_map_iff. by exists (n, vs).
    + by apply IH.
Qed.

Lemma headerIndex_absent (h : list (string * list string)) (n : string) :
  ~ In n (map fst h) -> headerIndex n h = [].
Proof.
  induction h as [|[k vs0] h IH]; intros Hn; [reflexivity|].
  simpl in Hn |- *. destruct (String.eqb k n) eqn:E.
  - apply String.eqb_eq in E; subst. tauto.
  - apply IH. tauto.
Qed.

(** X1: for a received response whose body reads (response header names
    distinct, as in a Go map), [dispatcher] returns no error and a response
    with the request's id, the response status, the body decoded from the
    bytes with the values of the Content-Encoding and Content-Type headers
    (none when absent), and a header map where Set-Cookie's values are
    joined with "/,/", every other header keeps its last value, a header
    without values is absent, and so is every header not received. *)
Theorem dispatcher_received_response (env : Env) (res : fullRequest) (sc : Z)
    (hdr : list (string * list string)) (bytes : list Byte.byte) :
  NoDup (map fst hdr) ->
  let '(resp, err) := dispatcher env res (DoOk (mkHttpResponse sc hdr (ReadOk bytes))) in
  err = None /\ resp_RequestID resp = RequestID (fr_options res) /\ resp_Status resp = sc /\
  (forall enc ct,
     (In ("Content-Encoding", enc) hdr \/ (~ In "Content-Encoding" (map fst hdr) /\ enc = [])) ->
     (In ("Content-Type", ct) hdr \/ (~ In "Content-Type" (map fst hdr) /\ ct = [])) ->
     resp_Body resp = DecompressBody env bytes enc ct) /\
  (forall name vs, In (name, vs) hdr ->
     resp_Headers resp !! name =
       if String.eqb name "Set-Cookie" then Some (GoStr.Join vs "/,/") else last vs) /\
  (forall name, ~ In name (map fst hdr) -> resp_Headers resp !! name = None).
Proof.
  intros Hnd. simpl. split; [reflexivity|]. split; [reflexivity|]. split; [reflexivity|].
  split; [|split].
  - intros enc ct He Hc. f_equal.
    + destruct He as [He|[He ->]];
        [exact (headerIndex_present _ _ _ Hnd He)|exact (headerIndex_absent _ _ He)].
    + destruct Hc as [Hc|[Hc ->]];
        [exact (headerIndex_present _ _ _ Hnd Hc)|exact (headerIndex_absent _ _ Hc)].
  - intros name vs Hin. rewrite flattenHeaders_fold.
    rewrite (flatten_present _ _ _ _ Hnd Hin). unfold flatEntry.
    destruct (String.eqb name "Set-Cookie"); [reflexivity|].
    by destruct (last vs).
  - intros name Hn. rewrite flattenHeaders_fold, flatten_absent by exact Hn.
    reflexivity.
Qed.

Lemma dispatcher_received_response_witness :
  (dispatcher Sample.env WorkerSample.job
     (DoOk (mkHttpResponse 200 [("Set-Cookie", ["a=1"; "b=2"]); ("Vary", ["A"; "B"])]
              (ReadOk [])))).1.(resp_Headers) !! "Vary" = Some "B".
Proof.
  pose proof (dispatcher_received_response Sample.env WorkerSample.job 200
    [("Set-Cookie", ["a=1"; "b=2"]); ("Vary", ["A"; "B"])] [] ltac:(apply (bool_decide_unpack _); vm_compute; reflexivity)) as H.
  simpl in H. destruct H as (_ & _ & _ & _ & Hh & _).
  apply (Hh "Vary" ["A"; "B"]). simpl. auto.
Defined.

(** ** The client cache only grows *)

(** X2: a [Do] call that returns never drops or replaces a cached client;
    the only entry it can add is for the host of the URL it was given. *)
Theorem do_cache_only_grows (env : Env) (client client' : CycleTLS) (url : string)
    (opts : Options) (m : string) (net : Client -> Request -> DoResult)
    (x : Response * option string) :
  Do env client url opts m net = Ret (x, client') ->
  (forall h c, lookupCache (cacheClients client) h = Some c ->
               lookupCache (cacheClients client') h = Some c) /\
  (forall h c, lookupCache (cacheClients client') h = Some c ->
     lookupCache (cacheClients client) h = Some c \/
     exists u, urlParse env url = inr u /\ h = url_Host u).
Proof.
  intros H. unfold Do in H; cbv zeta in H.
  destruct (processRequest _ _ _) as [[fr cc]| |] eqn:Hp; simpl in H; try discriminate.
  injection H as _ <-. exact (processRequest_cache _ _ _ _ _ Hp).
Qed.

Lemma do_cache_only_grows_witness :
  exists x client',
    Do Sample.env (Init []) "https://a.com/x" (Sample.opts [] []) "GET"
      (fun _ _ => DoErr "") = Ret (x, client') /\
    forall c, lookupCache (cacheClients client') "b.com" = Some c -> False.
Proof.
  do 2 eexists.
  match goal with |- ?A /\ _ => assert (HA : A) by reflexivity end.
  split; [exact HA|]. intros c Hc.
  destruct (proj2 (do_cache_only_grows _ _ _ _ _ _ _ _ HA) "b.com" c Hc)
    as [H|(u & Hu & Hh)].
  - discriminate.
  - injection Hu as <-. discriminate.
Defined.

(** ** The request method *)

(** X3: a built request carries the method upper-cased, or GET when it is
    empty; a method that is not an HTTP token once upper-cased (e.g. it
    contains a space) makes [processRequest] call [log.Fatal] (exit 1)
    once the URL parsed and a client was obtained. *)
Theorem processRequest_method (env : Env) (cc : cache) (request : cycleTLSRequest) :
  let o := ctr_Options request in
  (forall fr cc', processRequest env cc request = Ret (fr, cc') ->
     req_Method (fr_req fr) =
       (if String.eqb (GoStr.ToUpper (Method o)) "" then "GET" else GoStr.ToUpper (Method o)) /\
     validMethod (req_Method (fr_req fr)) = true) /\
  (forall u c cc', urlParse env (URL o) = inr u ->
     getClient env cc (url_Host u) o = Ret (c, cc') ->
     GoStr.all_valid (GoStr.ToUpper (Method o)) = false ->
     processRequest env cc request = Exit 1).
Proof.
  intros o. split.
  - intros fr cc' H. apply processRequest_inv in H as (u & r & _ & _ & Hn & _ & Hr).
    rewrite Hr. simpl. unfold NewRequest in Hn. fold o in Hn |- *.
    destruct (validMethod _) eqn:V; simpl in Hn; [|discriminate].
    destruct (urlParse env (URL o)); [discriminate|]. injection Hn as <-. simpl.
    split; [reflexivity|exact V].
  - intros u c cc' Hu Hg Hv. unfold processRequest; cbv zeta. fold o. rewrite Hu, Hg.
    simpl. unfold NewRequest.
    destruct (String.eqb (GoStr.ToUpper (Method o)) "") eqn:E.
    + apply String.eqb_eq in E. rewrite E in Hv. discriminate.
    + unfold validMethod. rewrite E, Hv. reflexivity.
Qed.

Lemma processRequest_method_witness :
  processRequest Sample.env (Some ∅)
    (mkCycleTLSRequest "cycleTLSRequest" (setURLMethod (Sample.opts [] []) "https://a.com/x" "ge t"))
    = Exit 1.
Proof.
  apply (proj2 (processRequest_method Sample.env (Some ∅)
    (mkCycleTLSRequest "cycleTLSRequest" (setURLMethod (Sample.opts [] []) "https://a.com/x" "ge t")))
    (mkURLInfo "a.com") (mkClient (mkBrowser "771,4865" "X" []) 10 false "X" "")
    (Some {["a.com" := mkClient (mkBrowser "771,4865" "X" []) 10 false "X" ""]})); reflexivity.
Defined.

(** ** The other entries of the outgoing header map *)

Section HeaderMap.

Lemma is_upper_shift (c : ascii) :
  GoStr.is_lower c = true -> GoStr.is_upper (ascii_of_nat (nat_of_ascii c - 32)) = true.
Proof.
  unfold GoStr.is_lower, GoStr.is_upper. intros H.
  apply andb_prop in H as [H1 H2]. apply Nat.leb_le in H1, H2.
  rewrite nat_ascii_embedding by (pose proof (nat_ascii_bounded c); lia).
  apply andb_true_intro. split; apply Nat.leb_le; lia.
Qed.

Lemma is_lower_shift (c : ascii) :
  GoStr.is_upper c = true -> GoStr.is_lower (ascii_of_nat (nat_of_ascii c + 32)) = true.
Proof.
  unfold GoStr.is_lower, GoStr.is_upper. intros H.
  apply andb_prop in H as [H1 H2]. apply Nat.leb_le in H1, H2.
  rewrite nat_ascii_embedding by lia.
  apply andb_true_intro. split; apply Nat.leb_le; lia.
Qed.

Lemma valid_upper_char (c : ascii) :
  GoStr.validHeaderFieldByte c = true -> GoStr.validHeaderFieldByte (GoStr.upper_char c) = true.
Proof.
  intros H. unfold GoStr.upper_char. destruct (GoStr.is_lower c) eqn:L; [|exact H].
  unfold GoStr.validHeaderFieldByte; cbv zeta. by rewrite (is_upper_shift c L).
Qed.

Lemma valid_lower_char (c : ascii) :
  GoStr.validHeaderFieldByte c = true -> GoStr.validHeaderFieldByte (GoStr.lower_char c) = true.
Proof.
  intros H. unfold GoStr.lower_char. destruct (GoStr.is_upper c) eqn:U; [|exact H].
  unfold GoStr.validHeaderFieldByte; cbv zeta. rewrite (is_lower_shift c U).
  by rewrite orb_true_r.
Qed.

Lemma all_valid_canon_go (s : string) :
  forall b, GoStr.all_valid s = true -> GoStr.all_valid (GoStr.canon_go b s) = true.
Proof.
  induction s as [|c s IH]; intros b H; simpl in *; [reflexivity|].
  apply andb_prop in H as [Hc Hs]. apply andb_true_intro. split; [|by apply IH].
  destruct b; [by apply valid_upper_char|by apply valid_lower_char].
Qed.

(** A key with a byte that is no header-field byte is only reached by
    itself. *)
Lemma canon_invalid_target (k K : string) :
  GoStr.all_valid K = false -> GoStr.CanonicalMIMEHeaderKey k = K -> k = K.
Proof.
  unfold GoStr.CanonicalMIMEHeaderKey. intros HK.
  destruct (GoStr.all_valid k) eqn:V; [|done].
  intros <-. by rewrite all_valid_canon_go in HK.
Qed.

Definition callerHeaders (hs : list (string * string)) (h : gmap string (list string))
    : gmap string (list string) :=
  fold_left (fun h '(k, v) =>
      if String.eqb k "Content-Length" then h else Header_Set k v h) hs h.

Lemma callerHeaders_untouched (hs : list (string * string)) (K : string) :
  forall h, (forall k v, In (k, v) hs -> k <> "Content-Length" ->
                         GoStr.CanonicalMIMEHeaderKey k <> K) ->
  callerHeaders hs h !! K = h !! K.
Proof.
  unfold callerHeaders.
  induction hs as [|[k v] hs IH]; intros h Hk; [reflexivity|]. cbn [fold_left].
  rewrite IH by (intros; apply (Hk k0 v0); [right|]; done).
  destruct (String.eqb k "Content-Length") eqn:E; [reflexivity|].
  apply String.eqb_neq in E. unfold Header_Set.
  apply lookup_insert_ne. apply (Hk k v); [left; reflexivity|exact E].
Qed.

Lemma buildHeader_untouched (hk : list string) (o : Options) (u : urlInfo) (K : string) :
  K <> "Host" -> K <> "User-Agent" ->
  (forall k v, In (k, v) (Headers o) -> k <> "Content-Length" ->
               GoStr.CanonicalMIMEHeaderKey k <> K) ->
  buildHeader hk o u !! K =
    (<[HeaderOrderKey := hk]>
       (<[PHeaderOrderKey := [":method"; ":authority"; ":scheme"; ":path"]]> ∅)
       : gmap string (list string)) !! K.
Proof.
  intros H1 H2 Hk. unfold buildHeader, Header_Set.
  rewrite canon_user_agent, canon_host.
  rewrite !lookup_insert_ne by congruence.
  exact (callerHeaders_untouched (Headers o) K _ Hk).
Qed.

End HeaderMap.

Lemma processRequest_header (env : Env) (cc cc' : cache) (request : cycleTLSRequest)
    (fr : fullRequest) :
  processRequest env cc request = Ret (fr, cc') ->
  exists u, req_Header (fr_req fr) =
    buildHeader (headerOrderKeys (headerOrderOf (HeaderOrder (ctr_Options request)))
                   (Headers (ctr_Options request))) (ctr_Options request) u.
Proof.
  intros H. apply processRequest_inv in H as (u & r & _ & _ & _ & _ & Hr).
  exists u. by rewrite Hr.
Qed.

(** X4: unless a caller header is literally named "Header-Order:" or
    "PHeader-Order:", a built request carries the computed header order
    under fhttp's Header-Order key and the pseudo-header order
    :method, :authority, :scheme, :path under its PHeader-Order key. *)
Theorem request_order_entries (env : Env) (cc cc' : cache) (request : cycleTLSRequest)
    (fr : fullRequest) :
  let o := ctr_Options request in
  processRequest env cc request = Ret (fr, cc') ->
  (forall k v, In (k, v) (Headers o) -> k <> HeaderOrderKey /\ k <> PHeaderOrderKey) ->
  req_Header (fr_req fr) !! HeaderOrderKey =
    Some (headerOrderKeys (headerOrderOf (HeaderOrder o)) (Headers o)) /\
  req_Header (fr_req fr) !! PHeaderOrderKey = Some [":method"; ":authority"; ":scheme"; ":path"].
Proof.
  intros o H Hk. apply processRequest_header in H as [u ->]. split.
  - rewrite buildHeader_untouched by
      (first [discriminate
             | intros k v Hin _ Hc;
               apply canon_invalid_target in Hc; [|reflexivity];
               exact (proj1 (Hk k v Hin) Hc)]).
    by rewrite lookup_insert_eq.
  - rewrite buildHeader_untouched by
      (first [discriminate
             | intros k v Hin _ Hc;
               apply canon_invalid_target in Hc; [|reflexivity];
               exact (proj2 (Hk k v Hin) Hc)]).
    rewrite lookup_insert_ne by discriminate. by rewrite lookup_insert_eq.
Qed.

Lemma request_order_entries_witness :
  exists fr cc',
    processRequest Sample.env (Some ∅) HeaderSample.req = Ret (fr, cc') /\
    req_Header (fr_req fr) !! PHeaderOrderKey = Some [":method"; ":authority"; ":scheme"; ":path"].
Proof.
  do 2 eexists.
  match goal with |- ?A /\ _ => assert (HA : A) by reflexivity end.
  split; [exact HA|].
  refine (proj2 (request_order_entries _ _ _ _ _ HA _)).
  intros k v Hin. simpl in Hin.
  destruct Hin as [[= <- _]|[[= <- _]|[[= <- _]|[]]]]; split; discriminate.
Defined.

(** X5: when every caller header key that canonicalises to
    "Content-Length" is spelled exactly so, the built request has no
    Content-Length entry. *)
Theorem request_content_length_exact (env : Env) (cc cc' : cache) (request : cycleTLSRequest)
    (fr : fullRequest) :
  let o := ctr_Options request in
  processRequest env cc request = Ret (fr, cc') ->
  (forall k v, In (k, v) (Headers o) ->
     GoStr.CanonicalMIMEHeaderKey k = "Content-Length" -> k = "Content-Length") ->
  req_Header (fr_req fr) !! "Content-Length" = None.
Proof.
  intros o H Hk. apply processRequest_header in H as [u ->].
  rewrite buildHeader_untouched by
    (first [discriminate | intros k v Hin Hne Hc; exact (Hne (Hk k v Hin Hc))]).
  rewrite !lookup_insert_ne by discriminate. apply lookup_empty.
Qed.

Module CLSample.

Definition req : cycleTLSRequest :=
  mkCycleTLSRequest "cycleTLSRequest"
    (setURLMethod (Sample.opts [("Content-Length", "5"); ("Accept", "*/*")] [])
       "https://a.com/x" "POST").

End CLSample.

Lemma request_content_length_exact_witness :
  exists fr cc',
    processRequest Sample.env (Some ∅) CLSample.req = Ret (fr, cc') /\
    req_Header (fr_req fr) !! "Content-Length" = None.
Proof.
  do 2 eexists.
  match goal with |- ?A /\ _ => assert (HA : A) by reflexivity end.
  split; [exact HA|].
  refine (request_content_length_exact _ _ _ _ _ HA _).
  intros k v Hin. simpl in Hin.
  destruct Hin as [[= <- _]|[[= <- _]|[]]]; [reflexivity|discriminate].
Defined.

(** ** Pool bookkeeping *)

Lemma busy_bound_steps (env : Env) (st st' : PoolState) :
  poolSteps env st st' -> (length (busy st) <= poolSize)%nat ->
  (length (busy st') <= poolSize)%nat.
Proof.
  induction 1 as [st|st1 st2 st3 Hs _ IH]; intros Hb; [exact Hb|].
  apply IH. inversion Hs as [r p b o s|r p b o s Hlt|r out p b1 b2 o s]; subst;
    simpl in *; try lia.
  rewrite !length_app in Hb |- *. simpl in Hb. lia.
Qed.

(** X6: in every run of the pool, each submitted request is in exactly one
    place (waiting, held by a worker, or answered), so
    #waiting + #in progress + #results = #submitted, and at most 100
    requests are in progress at once. *)
Theorem pool_counts (env : Env) (st : PoolState) :
  poolSteps env poolInit st ->
  (length (pending st) + length (busy st) + length (results st) = length (submitted st))%nat /\
  (length (busy st) <= poolSize)%nat.
Proof.
  intros Hrun. split.
  - destruct (poolInv_steps env _ _ Hrun (poolInv_init env)) as (done & Hp & Hf).
    rewrite (Permutation_length Hp), !length_app, (Forall2_length _ _ _ Hf). lia.
  - apply (busy_bound_steps env _ _ Hrun). simpl. unfold poolSize. lia.
Qed.

Lemma pool_counts_witness :
  (length (pending PoolSample.answered) + length (busy PoolSample.answered)
   + length (results PoolSample.answered) = length (submitted PoolSample.answered))%nat.
Proof. exact (proj1 (pool_counts Sample.env _ PoolSample.run_answered)). Defined.

(** ** Channels: [Close] and the send in [Queue] *)

(** A channel as [make] creates it, after [close], or nil (a field never
    set). *)
Inductive chanState := ChanNil | ChanOpen | ChanClosed.

(** Go's [close]. *)
Definition closeChan (c : chanState) : go chanState :=
  match c with
  | ChanNil => Panic "close of nil channel"
  | ChanOpen => Ret ChanClosed
  | ChanClosed => Panic "close of closed channel"
  end.

(** [Close] (index.go lines 254-258): ReqChan, then RespChan. *)
Definition Close (chans : chanState * chanState) : go (chanState * chanState) :=
  r ← closeChan chans.1; s ← closeChan chans.2; Ret (r, s).

(** The (ReqChan, RespChan) pair [Init] sets up. *)
Definition initChans (workers : list bool) : chanState * chanState :=
  match workers with
  | true :: _ => (ChanOpen, ChanOpen)
  | _ => (ChanNil, ChanNil)
  end.

(** A send: on a nil channel it blocks forever, on a closed one it panics. *)
Inductive sendOutcome := Delivered (r : fullRequest) | BlockedForever.

Definition chanSend (c : chanState) (r : fullRequest) : go sendOutcome :=
  match c with
  | ChanNil => Ret BlockedForever
  | ChanOpen => Ret (Delivered r)
  | ChanClosed => Panic "send on closed channel"
  end.

(** [Queue] with its final [client.ReqChan <- response]. *)
Definition QueueSend (env : Env) (client : CycleTLS) (reqChan : chanState) (url : string)
    (options : Options) (method : string) : go (sendOutcome * CycleTLS) :=
  '(r, client') ← Queue env client url options method;
  s ← chanSend reqChan r;
  Ret (s, client').

(** X7: [Close] on a handle made without the pool panics (its channels
    are nil); on a pool handle the first [Close] closes both channels, a
    second one panics, and a [Queue] after it panics on the send. *)
Theorem close_once_on_pool (env : Env) (workers : list bool) :
  (has_channels (Init workers) = false -> Close (initChans workers) = Panic "close of nil channel") /\
  (has_channels (Init workers) = true ->
     Close (initChans workers) = Ret (ChanClosed, ChanClosed) /\
     Close (ChanClosed, ChanClosed) = Panic "close of closed channel" /\
     forall client url opts m r client',
       Queue env client url opts m = Ret (r, client') ->
       QueueSend env client ChanClosed url opts m = Panic "send on closed channel").
Proof.
  destruct workers as [|[|] rest]; simpl; split; try discriminate; try reflexivity.
  intros _. split; [reflexivity|]. split; [reflexivity|].
  intros client url opts m r client' H. unfold QueueSend. rewrite H. reflexivity.
Qed.

Lemma close_once_on_pool_witness :
  Close (initChans []) = Panic "close of nil channel" /\
  Close (initChans [true]) = Ret (ChanClosed, ChanClosed).
Proof.
  split.
  - exact (proj1 (close_once_on_pool Sample.env []) eq_refl).
  - exact (proj1 (proj2 (close_once_on_pool Sample.env [true]) eq_refl)).
Defined.

(** X8: through a handle from [Init], [Queue] never hands a request to the
    workers: without the pool ReqChan is nil and the send blocks forever;
    with the pool the nil cache makes building the request abort first. *)
Theorem queue_never_delivers (env : Env) (workers : list bool) (url : string)
    (opts : Options) (m : string) (r : fullRequest) (client' : CycleTLS) :
  QueueSend env (Init workers) (initChans workers).1 url opts m <> Ret (Delivered r, client').
Proof.
  unfold QueueSend, Queue; cbv zeta.
  destruct workers as [|[|] rest]; simpl.
  - destruct (processRequest _ _ _) as [[fr cc]| |]; simpl; discriminate.
  - destruct (processRequest _ _ _) as [[fr cc]| |] eqn:H; simpl; try discriminate.
    exfalso. exact (processRequest_nil _ _ _ H).
  - destruct (processRequest _ _ _) as [[fr cc]| |]; simpl; discriminate.
Qed.

Lemma queue_never_delivers_witness :
  QueueSend Sample.env (Init []) (initChans []).1 "https://a.com/x" (Sample.opts [] []) "GET"
    <> Ret (Delivered WorkerSample.job, Init []).
Proof. exact (queue_never_delivers _ _ _ _ _ _ _). Defined.
